(** * RingBufCPP: a fixed-capacity ring (FIFO) buffer

    A shallow embedding of [RingBufCPP<T, Size>] (src/RingBufCPP.h) and the
    properties of its index arithmetic.

    - [size_t] is an unsigned integer of [size_bits] bits, modelled as [Z]
      with the wrap-around of every [++], [--], [+] and [-] written out.
    - The member array [_buf] is a [list T]; an access outside [0, Size)
      is undefined behaviour in C++ and is modelled as a fault ([None]).
    - Member functions are computations in a small state-and-fault monad
      over the object's fields.
    - [RB_ATOMIC_START] / [RB_ATOMIC_END] come from RingBufHelpers.h and
      delimit a critical section; in the sequential semantics given here
      they have no effect. *)

From Stdlib Require Import ZArith Lia Bool.
From stdpp Require Import base tactics numbers option list.

Local Open Scope Z_scope.

(** ** Unsigned machine arithmetic on [size_t] *)

Module SizeT.

Definition modulus (bits : Z) : Z := 2 ^ bits.

(** Reduction of a mathematical integer to its [size_t] representative. *)
Definition wrap (bits x : Z) : Z := x mod modulus bits.

Definition add (bits x y : Z) : Z := wrap bits (x + y).
Definition sub (bits x y : Z) : Z := wrap bits (x - y).

(** [PTRDIFF_MAX]: no object, hence no array, is larger than this many
    bytes. *)
Definition ptrdiff_max (bits : Z) : Z := 2 ^ (bits - 1) - 1.

End SizeT.

(** ** A state monad with a fault outcome *)

Module Fallible.

Definition M (St A : Type) : Type := St -> option (A * St).

Definition ret {St A} (a : A) : M St A := fun s => Some (a, s).

Definition bind {St A B} (m : M St A) (k : A -> M St B) : M St B :=
  fun s => match m s with
           | Some (a, s') => k a s'
           | None => None
           end.

Definition fault {St A} : M St A := fun _ => None.

Definition get {St} : M St St := fun s => Some (s, s).

Definition modify {St} (f : St -> St) : M St unit := fun s => Some (tt, f s).

End Fallible.

Import Fallible.

Notation "x <- m ;; k" := (bind m (fun x => k))
  (at level 100, m at next level, right associativity).
Notation "m ;; k" := (bind m (fun _ => k))
  (at level 100, right associativity).

(** ** The object *)

(** The data members of [RingBufCPP<T, Size>]. *)
Record RingBuf (T : Type) : Type := mkRingBuf {
  _buf : list T;        (* value_type _buf[Size] *)
  _head : Z;            (* size_type _head *)
  _numElements : Z      (* size_type _numElements *)
}.

Arguments mkRingBuf {T} _ _ _.
Arguments _buf {T} _.
Arguments _head {T} _.
Arguments _numElements {T} _.

Section RingBufCPP.

Context {T : Type}.

(** Width of [size_t] on the target. *)
Variable size_bits : Z.

(** The template parameter [Size]. *)
Variable Size : Z.

Local Abbreviation state := (RingBuf T).

Definition set_head (h : Z) (s : state) : state :=
  mkRingBuf (_buf s) h (_numElements s).

Definition set_numElements (n : Z) (s : state) : state :=
  mkRingBuf (_buf s) (_head s) n.

Definition set_buf (b : list T) (s : state) : state :=
  mkRingBuf b (_head s) (_numElements s).

(** *** Accesses to the array [_buf] *)

Definition in_bounds (i : Z) : bool := (0 <=? i) && (i <? Size).

(** [_buf[i]] as an rvalue. *)
Definition load_buf (i : Z) : M state T :=
  fun s => if in_bounds i
           then match _buf s !! Z.to_nat i with
                | Some v => Some (v, s)
                | None => None
                end
           else None.

(** [_buf[i] = v]. *)
Definition store_buf (i : Z) (v : T) : M state unit :=
  fun s => if in_bounds i && bool_decide (Z.to_nat i < length (_buf s))%nat
           then Some (tt, set_buf (<[Z.to_nat i := v]> (_buf s)) s)
           else None.

(** [&_buf[i]]: a pointer into the array, represented by the slot. *)
Definition addr_buf (i : Z) : M state Z :=
  fun s => if in_bounds i then Some (i, s) else None.

(** [a % b] on [size_t]; division by zero is undefined. *)
Definition umod (a b : Z) : M state Z :=
  if b =? 0 then fault else ret (a mod b).

(** *** Capacity *)

Definition max_size : Z := Size.

Definition size (s : state) : Z := _numElements s.

Definition empty (s : state) : bool := size s =? 0.

Definition full (s : state) : bool := size s >=? max_size.

(** *** Index of the oldest element *)

Definition tail_index (s : state) : Z :=
  if full s then _head s
  else if _head s >=? _numElements s
       then SizeT.sub size_bits (_head s) (_numElements s)
       else SizeT.sub size_bits (SizeT.add size_bits max_size (_head s))
                      (_numElements s).

(** *** Modifiers *)

Definition clear : M state unit :=
  modify (set_numElements 0) ;;
  modify (set_head 0).

(** The constructor runs [clear()] on the not yet initialised members. *)
Definition RingBufCPP (raw : state) : option (unit * state) := clear raw.

Definition push (obj : T) (force : bool) : M state bool :=
  s <- get ;;
  let space := negb (full s) in
  if space || force then
    (* _buf[_head++] = obj; *)
    store_buf (_head s) obj ;;
    modify (set_head (SizeT.add size_bits (_head s) 1)) ;;
    (* Wrap around if the end of the array was reached. *)
    s1 <- get ;;
    (if _head s1 >=? max_size then modify (set_head 0) else ret tt) ;;
    (if space
     then s2 <- get ;;
          modify (set_numElements (SizeT.add size_bits (_numElements s2) 1))
     else ret tt) ;;
    ret true
  else ret false.

Definition add (obj : T) (force : bool) : M state bool := push obj force.

(** [peek] returns a pointer into [_buf]: [Some slot] stands for
    [&_buf[slot]] and [None] for [nullptr]. *)
Definition peek (index : Z) : M state (option Z) :=
  s <- get ;;
  if index <? size s then
    slot <- umod (SizeT.add size_bits (tail_index s) index) max_size ;;
    p <- addr_buf slot ;;
    ret (Some p)
  else ret None.

(** Reading through a pointer returned by [peek]. *)
Definition deref (p : Z) (s : state) : option T := _buf s !! Z.to_nat p.

(** [poll(value_type &destination)]. The referenced object belongs to the
    caller and is distinct from the slots of [_buf]; the computation takes
    its value before the call and returns its value after the call. *)
Definition poll (destination : T) : M state (bool * T) :=
  s <- get ;;
  if negb (empty s) then
    v <- load_buf (tail_index s) ;;
    modify (set_numElements (SizeT.sub size_bits (_numElements s) 1)) ;;
    ret (true, v)
  else ret (false, destination).

(** The overload [poll()] that discards the element. *)
Definition poll_discard : M state bool :=
  s <- get ;;
  if negb (empty s) then
    modify (set_numElements (SizeT.sub size_bits (_numElements s) 1)) ;;
    ret true
  else ret false.

(** [pull(value_type *destination)]: [None] is [nullptr], [Some d] a
    pointer to a caller-owned object holding [d]. *)
Definition pull (destination : option T) : M state (bool * option T) :=
  match destination with
  | Some d => r <- poll d ;; ret (fst r, Some (snd r))
  | None => b <- poll_discard ;; ret (b, None)
  end.

(** *** Well-formedness *)

(** [Size] is a value of type [size_t] and the array has at least one
    element. *)
Definition valid_Size : Prop := 1 <= Size < SizeT.modulus size_bits.

(** The array [_buf], of [Size] elements of at least one byte each, is an
    object and so is not larger than [PTRDIFF_MAX] bytes. *)
Definition array_fits : Prop := Size <= SizeT.ptrdiff_max size_bits.

(** The representation invariant of the class. *)
Definition inv (s : state) : Prop :=
  length (_buf s) = Z.to_nat Size /\
  0 <= _head s < Size /\
  0 <= _numElements s <= Size.

#[global] Instance valid_Size_dec : Decision valid_Size.
Proof. unfold valid_Size. apply _. Defined.

#[global] Instance array_fits_dec : Decision array_fits.
Proof. unfold array_fits. apply _. Defined.

#[global] Instance inv_dec (s : state) : Decision (inv s).
Proof. unfold inv. apply _. Defined.

(** *** The queue held by the buffer

    The [size()] elements starting at slot [tail_index()], wrapping at the
    end of the array, oldest first. *)
Definition contents (s : state) : list T :=
  take (Z.to_nat (_numElements s))
       (rotate (Z.to_nat (tail_index s)) (_buf s)).

(** *** Clients

    Straight-line callers of the public interface, used to state
    properties of sequences of calls. *)

(** [push(x)] for each [x] of [l] in order, collecting the results. *)
Fixpoint push_all (l : list T) : M state (list bool) :=
  match l with
  | [] => ret []
  | x :: l' => b <- push x false ;; bs <- push_all l' ;; ret (b :: bs)
  end.

(** [poll(destination)] repeated [n] times on one destination object,
    collecting each result together with the destination's value after
    the call. *)
Fixpoint poll_n (n : nat) (destination : T) : M state (list (bool * T)) :=
  match n with
  | O => ret []
  | S n' => r <- poll destination ;;
            rs <- poll_n n' (snd r) ;;
            ret (r :: rs)
  end.

(** One call of a public member function, with its arguments. *)
Inductive call : Type :=
  | CallClear
  | CallPush (obj : T) (force : bool)
  | CallAdd (obj : T) (force : bool)
  | CallPeek (index : Z)
  | CallPoll (destination : T)
  | CallPollDiscard
  | CallPull (destination : option T).

Definition do_call (c : call) : M state unit :=
  match c with
  | CallClear => clear
  | CallPush obj force => push obj force ;; ret tt
  | CallAdd obj force => add obj force ;; ret tt
  | CallPeek index => peek index ;; ret tt
  | CallPoll destination => poll destination ;; ret tt
  | CallPollDiscard => poll_discard ;; ret tt
  | CallPull destination => pull destination ;; ret tt
  end.

Fixpoint do_calls (cs : list call) : M state unit :=
  match cs with
  | [] => ret tt
  | c :: cs' => do_call c ;; do_calls cs'
  end.

End RingBufCPP.

Arguments call : clear implicits.

(** *** Sample instantiations

    [RingBufCPP<int, 3>] on a target with a 16-bit [size_t]. *)

Module Sample.

Definition bits : Z := 16.
Definition N : Z := 3.

(** Empty, with [_head] on the last slot. *)
Definition st_empty : RingBuf Z := mkRingBuf [0; 0; 0] 2 0.

(** Holding 10 and 20 in slots 0 and 1. *)
Definition st_partial : RingBuf Z := mkRingBuf [10; 20; 0] 2 2.

(** Full, holding 2, 3, 1 from oldest to newest. *)
Definition st_full : RingBuf Z := mkRingBuf [1; 2; 3] 1 3.

(** Members before the constructor has run. *)
Definition st_raw : RingBuf Z := mkRingBuf [7; 8; 9] 77 99.

Definition calls : list (call Z) :=
  [CallPush 1 false; CallAdd 2 true; CallPeek 0; CallPush 3 false;
   CallPush 4 false; CallPush 5 true; CallPoll 0; CallPull None;
   CallPull (Some 0); CallPollDiscard; CallPeek 1; CallClear;
   CallPush 6 false].

(** The scenario: push 1, 2, 3, then 4 without force, then 4 with
    force, then poll four times. Each step is paired with what [peek]
    sees at indices 0, 1 and 2 afterwards. *)
Definition peek3 : M (RingBuf Z) (list (option Z)) :=
  p0 <- peek bits N 0 ;;
  p1 <- peek bits N 1 ;;
  p2 <- peek bits N 2 ;;
  s <- get ;;
  ret (map (from_option (fun p => deref p s) None) [p0; p1; p2]).

Definition scenario : M (RingBuf Z) _ :=
  b1 <- push bits N 1 false ;;
  b2 <- push bits N 2 false ;;
  b3 <- push bits N 3 false ;;
  b4 <- push bits N 4 false ;;
  v4 <- peek3 ;;
  s4 <- get ;;
  b5 <- push bits N 4 true ;;
  v5 <- peek3 ;;
  s5 <- get ;;
  rs <- poll_n bits N 4 0 ;;
  s6 <- get ;;
  ret ([b1; b2; b3; b4; b5], (v4, size s4), (v5, size s5), rs, empty s6).

(** A 3-bit [size_t] and an array of 5 elements, which is larger than
    [PTRDIFF_MAX = 3]; full, holding 5, 1, 2, 3, 4. *)
Definition st_oversized : RingBuf Z := mkRingBuf [1; 2; 3; 4; 5] 4 5.

End Sample.

(** *** Callers

    The loops of the example program (examples_no_arduino/test.cpp) and
    further straight-line callers. A loop takes a bound on its number of
    iterations and answers [None] when the bound is reached before the
    loop has ended. *)

Section Callers.

Context {T : Type}.
Variables size_bits Size : Z.

Local Abbreviation state := (RingBuf T).

(** [push(x, force)] for each [x] of [l] in order. *)
Fixpoint push_each (force : bool) (l : list T) : M state (list bool) :=
  match l with
  | [] => ret []
  | x :: l' =>
      b <- push size_bits Size x force ;;
      bs <- push_each force l' ;;
      ret (b :: bs)
  end.

(** [for (size_t j = 0; ; j++) { auto peek_val = q.peek(j);
      if (!peek_val) break; printf(..., *peek_val); }]
    started at [j]; the result lists the values printed. *)
Fixpoint peek_loop (fuel : nat) (j : Z) : M state (option (list T)) :=
  match fuel with
  | O => ret None
  | S fuel' =>
      peek_val <- peek size_bits Size j ;;
      match peek_val with
      | None => ret (Some [])
      | Some p =>
          v <- load_buf Size p ;;
          rest <- peek_loop fuel' (SizeT.add size_bits j 1) ;;
          ret (cons v <$> rest)
      end
  end.

(** [while (!q.empty()) { int pulled; q.pull(&pulled);
      printf("Got %d\n", pulled); }]
    where [pulled] is what the variable holds before each call; the
    result lists the values printed. *)
Fixpoint drain_loop (fuel : nat) (pulled : T) : M state (option (list T)) :=
  match fuel with
  | O => ret None
  | S fuel' =>
      s <- get ;;
      if negb (empty s) then
        r <- pull size_bits Size (Some pulled) ;;
        rest <- drain_loop fuel' pulled ;;
        ret (cons (default pulled (snd r)) <$> rest)
      else ret (Some [])
  end.

(** *** A bounded queue

    The effect a call is meant to have on a FIFO queue of at most [Size]
    elements, oldest first; the reference the buffer is compared with. *)
Definition queue_step (c : call T) (q : list T) : list T :=
  match c with
  | CallClear => []
  | CallPush obj force | CallAdd obj force =>
      if bool_decide (length q < Z.to_nat Size)%nat then q ++ [obj]
      else if force then drop 1 q ++ [obj]
      else q
  | CallPeek _ => q
  | CallPoll _ | CallPollDiscard | CallPull _ => drop 1 q
  end.

Definition queue_steps (cs : list (call T)) (q : list T) : list T :=
  foldl (fun q c => queue_step c q) q cs.

(** The last [Size] elements of a list. *)
Definition newest (l : list T) : list T :=
  drop (length l - Z.to_nat Size)%nat l.

End Callers.

Module SampleCallers.

(** Members holding values that no sequence of calls produces. *)
Definition st_corrupt : RingBuf Z := mkRingBuf [7; 8; 9] 12 40.

Definition calls : list (call Z) :=
  [CallPush 1 false; CallAdd 2 false; CallPush 3 false; CallPush 4 false;
   CallPush 5 true; CallPeek 1; CallPoll 0; CallPull None; CallPush 6 false;
   CallPollDiscard; CallPull (Some 0); CallClear; CallAdd 7 true].

End SampleCallers.

(** * Properties *)

Module SizeTFacts.

Lemma wrap_small bits x :
  0 <= x < SizeT.modulus bits -> SizeT.wrap bits x = x.
Proof. intros. unfold SizeT.wrap. apply Z.mod_small; lia. Qed.

Lemma wrap_wrap_sub bits a b :
  SizeT.wrap bits (SizeT.wrap bits a - b) = SizeT.wrap bits (a - b).
Proof. unfold SizeT.wrap. apply Zminus_mod_idemp_l. Qed.

Lemma two_ptrdiff_max bits :
  1 <= bits -> 2 * SizeT.ptrdiff_max bits + 2 = SizeT.modulus bits.
Proof.
  intros. unfold SizeT.ptrdiff_max, SizeT.modulus.
  replace bits with (Z.succ (bits - 1)) at 2 by lia.
  rewrite Z.pow_succ_r by lia. lia.
Qed.

(** Reduction modulo [n] of a number below [2 * n]. *)
Lemma mod_once a n :
  0 <= a < 2 * n -> a mod n = if a <? n then a else a - n.
Proof.
  intros. destruct (Z.ltb_spec a n).
  - apply Z.mod_small; lia.
  - symmetry. apply (Z.mod_unique a n 1); lia.
Qed.

(** Reduction modulo [n] of a number in [[-n, n)]. *)
Lemma mod_neg_once a n :
  - n <= a < n -> a mod n = if a <? 0 then a + n else a.
Proof.
  intros. destruct (Z.ltb_spec a 0).
  - symmetry. apply (Z.mod_unique a n (-1)); lia.
  - apply Z.mod_small; lia.
Qed.

(** A reduced head may stand for the head in a slot computation. *)
Lemma mod_slot a b c n : (a mod n - b + c) mod n = (a - b + c) mod n.
Proof.
  replace (a mod n - b + c) with (a mod n + (c - b)) by lia.
  rewrite Zplus_mod_idemp_l. f_equal. lia.
Qed.

End SizeTFacts.

(** Case analysis on the integer comparisons of a goal. *)
Ltac zcases :=
  repeat match goal with
  | |- context [?a >=? ?b] => rewrite (Z.geb_leb a b)
  | H : context [?a >=? ?b] |- _ => rewrite (Z.geb_leb a b) in H
  end;
  repeat match goal with
  | |- context [?a <=? ?b] => destruct (Z.leb_spec a b)
  | |- context [?a <? ?b] => destruct (Z.ltb_spec a b)
  | |- context [?a =? ?b] => destruct (Z.eqb_spec a b)
  | H : context [?a <=? ?b] |- _ => destruct (Z.leb_spec a b)
  | H : context [?a <? ?b] |- _ => destruct (Z.ltb_spec a b)
  | H : context [?a =? ?b] |- _ => destruct (Z.eqb_spec a b)
  end.

(** Boolean comparisons among the hypotheses, as propositions. *)
Ltac zprop :=
  repeat match goal with
  | H : context [?a >=? ?b] |- _ => rewrite (Z.geb_leb a b) in H
  | H : (_ <=? _) = true |- _ => apply Z.leb_le in H
  | H : (_ <=? _) = false |- _ => apply Z.leb_gt in H
  | H : (_ <? _) = true |- _ => apply Z.ltb_lt in H
  | H : (_ <? _) = false |- _ => apply Z.ltb_ge in H
  | H : (_ =? _) = true |- _ => apply Z.eqb_eq in H
  | H : (_ =? _) = false |- _ => apply Z.eqb_neq in H
  end.

(** Unfolding of the monadic operations and of the field updates. *)
Ltac run :=
  unfold push, add, peek, poll, poll_discard, pull, clear, RingBufCPP,
    load_buf, store_buf, addr_buf, umod, bind, ret, get, modify, fault,
    set_head, set_buf, set_numElements, full, empty, size, max_size,
    in_bounds in *;
  simpl in *.

Section Operations.

Context {T : Type}.
Variables bits N : Z.
Hypothesis HN : valid_Size bits N.

Implicit Types (s : RingBuf T) (obj v d : T) (force : bool).

Lemma bits_pos : 1 <= bits.
Proof.
  destruct HN as [H1 H2]. unfold SizeT.modulus in H2.
  destruct (Z.le_gt_cases 1 bits) as [|Hlt]; [done|exfalso].
  destruct (Z.eq_dec bits 0) as [->|]; [simpl in H2; lia|].
  rewrite Z.pow_neg_r in H2 by lia. lia.
Qed.

(** [tail_index] without the machine arithmetic. *)
Lemma tail_index_unwrapped s :
  inv N s ->
  tail_index bits N s =
    if _numElements s =? N then _head s
    else if _numElements s <=? _head s then _head s - _numElements s
         else N + _head s - _numElements s.
Proof.
  intros (_ & Hh & Hn). destruct HN as [H1 H2].
  unfold tail_index, SizeT.sub, SizeT.add. run.
  rewrite ?SizeTFacts.wrap_wrap_sub.
  zcases; try lia; try done; apply SizeTFacts.wrap_small; lia.
Qed.

Lemma tail_index_bounds s : inv N s -> 0 <= tail_index bits N s < N.
Proof.
  intros Hs. rewrite tail_index_unwrapped by done.
  destruct Hs as (_ & Hh & Hn). zcases; lia.
Qed.

Lemma tail_index_mod s :
  inv N s -> tail_index bits N s = (_head s - _numElements s) mod N.
Proof.
  intros Hs. rewrite tail_index_unwrapped by done.
  destruct Hs as (_ & Hh & Hn).
  rewrite SizeTFacts.mod_neg_once by lia. zcases; lia.
Qed.

Lemma push_space obj force s :
  inv N s -> full N s = false ->
  push bits N obj force s =
    Some (true, mkRingBuf (<[Z.to_nat (_head s) := obj]> (_buf s))
                          ((_head s + 1) mod N) (_numElements s + 1)).
Proof.
  intros (Hl & Hh & Hn) Hf. destruct HN as [H1 H2]. destruct s as [b h n].
  run. rewrite Hf. simpl. zprop.
  rewrite bool_decide_true by lia.
  unfold SizeT.add. rewrite !SizeTFacts.wrap_small by lia.
  rewrite SizeTFacts.mod_once by lia.
  zcases; simpl; try lia;
    rewrite ?SizeTFacts.wrap_small by lia; repeat f_equal; lia.
Qed.

Lemma push_full_force obj s :
  inv N s -> full N s = true ->
  push bits N obj true s =
    Some (true, mkRingBuf (<[Z.to_nat (_head s) := obj]> (_buf s))
                          ((_head s + 1) mod N) (_numElements s)).
Proof.
  intros (Hl & Hh & Hn) Hf. destruct HN as [H1 H2]. destruct s as [b h n].
  run. rewrite Hf. simpl. zprop.
  rewrite bool_decide_true by lia.
  unfold SizeT.add. rewrite !SizeTFacts.wrap_small by lia.
  rewrite SizeTFacts.mod_once by lia.
  zcases; simpl; try lia;
    rewrite ?SizeTFacts.wrap_small by lia; repeat f_equal; lia.
Qed.

Lemma push_full_reject obj s :
  full N s = true -> push bits N obj false s = Some (false, s).
Proof. intros Hf. run. by rewrite Hf. Qed.

Lemma peek_run index s :
  inv N s ->
  peek bits N index s =
    Some (if index <? size s
          then Some (SizeT.add bits (tail_index bits N s) index mod N)
          else None, s).
Proof.
  intros (Hl & Hh & Hn). destruct HN as [H1 H2]. run.
  destruct (index <? _numElements s); [|done].
  destruct (Z.eqb_spec N 0); [lia|].
  pose proof (Z.mod_pos_bound (SizeT.add bits (tail_index bits N s) index) N).
  zcases; try lia; done.
Qed.

Lemma poll_nonempty d s :
  inv N s -> empty s = false ->
  exists v, _buf s !! Z.to_nat (tail_index bits N s) = Some v /\
    poll bits N d s =
      Some ((true, v), set_numElements (_numElements s - 1) s).
Proof.
  intros Hs He. pose proof (tail_index_bounds s Hs) as Ht.
  destruct Hs as (Hl & Hh & Hn). destruct HN as [H1 H2].
  destruct (lookup_lt_is_Some_2 (_buf s) (Z.to_nat (tail_index bits N s)))
    as [v Hv]; [lia|].
  exists v. split; [done|]. run. rewrite He. simpl.
  zcases; try lia. rewrite Hv.
  unfold SizeT.sub. rewrite SizeTFacts.wrap_small; [done|].
  destruct (Z.eqb_spec (_numElements s) 0); [done|lia].
Qed.

Lemma poll_empty d s :
  empty s = true -> poll bits N d s = Some ((false, d), s).
Proof. intros He. run. by rewrite He. Qed.

Lemma poll_discard_run s :
  inv N s ->
  poll_discard bits s =
    Some (negb (empty s),
          if empty s then s else set_numElements (_numElements s - 1) s).
Proof.
  intros (Hl & Hh & Hn). destruct HN as [H1 H2]. run.
  destruct (Z.eqb_spec (_numElements s) 0); simpl; [done|].
  unfold SizeT.sub. rewrite SizeTFacts.wrap_small; [done|lia].
Qed.

End Operations.

(** ** The buffer as a queue *)

Section Queue.

Context {T : Type}.
Variables bits N : Z.
Hypothesis HN : valid_Size bits N.

Implicit Types (s : RingBuf T) (obj v d : T) (force : bool).

Lemma length_contents s :
  inv N s -> length (contents bits N s) = Z.to_nat (_numElements s).
Proof.
  intros (Hl & Hh & Hn). unfold contents.
  rewrite length_take, length_rotate. lia.
Qed.

(** Element [i] of the queue lives in slot [(head - count + i) mod N]. *)
Lemma lookup_contents s i :
  inv N s -> (i < Z.to_nat (_numElements s))%nat ->
  contents bits N s !! i =
    _buf s !! Z.to_nat ((_head s - _numElements s + Z.of_nat i) mod N).
Proof.
  intros Hs Hi. pose proof (tail_index_bounds bits N HN s Hs) as Ht.
  pose proof (tail_index_mod bits N HN s Hs) as Hm.
  destruct Hs as (Hl & Hh & Hn). unfold contents.
  rewrite lookup_take_lt by done.
  rewrite lookup_rotate_r by lia.
  unfold rotate_nat_add. rewrite Hl, !Z2Nat.id by lia.
  by rewrite Hm, Zplus_mod_idemp_l.
Qed.

Lemma lookup_contents_ge s i :
  (Z.to_nat (_numElements s) <= i)%nat -> contents bits N s !! i = None.
Proof. intros Hi. unfold contents. by apply lookup_take_ge. Qed.

(** The slot of element [i] is the slot [tail_index() + i] reduced modulo
    [N], as [peek] computes it when the sum does not wrap. *)
Lemma lookup_contents_tail s i :
  inv N s -> 0 <= i < _numElements s ->
  contents bits N s !! Z.to_nat i =
    _buf s !! Z.to_nat ((tail_index bits N s + i) mod N).
Proof.
  intros Hs Hi. rewrite lookup_contents by (done || lia).
  rewrite (tail_index_mod bits N HN s Hs), Zplus_mod_idemp_l.
  by rewrite Z2Nat.id by lia.
Qed.

Lemma inv_push s obj h' n' :
  inv N s -> 0 <= h' < N -> 0 <= n' <= N ->
  inv N (mkRingBuf (<[Z.to_nat (_head s) := obj]> (_buf s)) h' n').
Proof.
  intros (Hl & Hh & Hn) ??. unfold inv; simpl.
  by rewrite length_insert.
Qed.

(** A push into free space appends to the queue. *)
Lemma contents_push_space s obj :
  inv N s -> _numElements s < N ->
  contents bits N
    (mkRingBuf (<[Z.to_nat (_head s) := obj]> (_buf s))
               ((_head s + 1) mod N) (_numElements s + 1))
  = contents bits N s ++ [obj].
Proof.
  intros Hs Hlt. pose proof Hs as (Hl & Hh & Hn). destruct HN as [H1 H2].
  assert (Hs' : inv N (mkRingBuf (<[Z.to_nat (_head s) := obj]> (_buf s))
                         ((_head s + 1) mod N) (_numElements s + 1))).
  { apply inv_push; [done| |lia]. apply Z.mod_pos_bound; lia. }
  apply list_eq; intros i.
  destruct (decide (i < Z.to_nat (_numElements s))%nat) as [Hi|Hi].
  - rewrite lookup_app_l by (rewrite length_contents; done).
    rewrite !lookup_contents by (done || simpl; lia). simpl.
    rewrite SizeTFacts.mod_slot.
    replace (_head s + 1 - (_numElements s + 1) + Z.of_nat i)
      with (_head s - _numElements s + Z.of_nat i) by lia.
    apply list_lookup_insert_ne.
    rewrite SizeTFacts.mod_neg_once by lia. zcases; lia.
  - rewrite lookup_app_r by (rewrite length_contents; [lia|done]).
    rewrite length_contents by done.
    destruct (decide (i = Z.to_nat (_numElements s))) as [->|Hne].
    + rewrite lookup_contents by (done || simpl; lia). simpl.
      rewrite SizeTFacts.mod_slot, Nat.sub_diag.
      replace (_head s + 1 - (_numElements s + 1)
               + Z.of_nat (Z.to_nat (_numElements s)))
        with (_head s) by lia.
      rewrite Z.mod_small by lia.
      rewrite list_lookup_insert_eq by lia. done.
    + rewrite lookup_contents_ge by (simpl; lia).
      symmetry. apply lookup_ge_None_2. simpl. lia.
Qed.

(** A forced push into a full buffer drops the oldest element and appends
    the new one. *)
Lemma contents_push_full s obj :
  inv N s -> _numElements s = N ->
  contents bits N
    (mkRingBuf (<[Z.to_nat (_head s) := obj]> (_buf s))
               ((_head s + 1) mod N) (_numElements s))
  = drop 1 (contents bits N s) ++ [obj].
Proof.
  intros Hs Hfull. pose proof Hs as (Hl & Hh & Hn). destruct HN as [H1 H2].
  assert (Hs' : inv N (mkRingBuf (<[Z.to_nat (_head s) := obj]> (_buf s))
                         ((_head s + 1) mod N) (_numElements s))).
  { apply inv_push; [done| |lia]. apply Z.mod_pos_bound; lia. }
  assert (Hlen : length (drop 1 (contents bits N s)) = Z.to_nat (N - 1)).
  { rewrite length_drop, length_contents by done. lia. }
  apply list_eq; intros i.
  destruct (decide (i < Z.to_nat (N - 1))%nat) as [Hi|Hi].
  - rewrite lookup_app_l by lia. rewrite lookup_drop.
    rewrite !lookup_contents by (done || simpl; lia). simpl.
    rewrite SizeTFacts.mod_slot.
    replace (_head s - _numElements s + Z.of_nat (S i))
      with (_head s + 1 - _numElements s + Z.of_nat i) by lia.
    apply list_lookup_insert_ne.
    rewrite SizeTFacts.mod_neg_once by lia. zcases; lia.
  - rewrite lookup_app_r by lia. rewrite Hlen.
    destruct (decide (i = Z.to_nat (N - 1))) as [->|Hne].
    + rewrite lookup_contents by (done || simpl; lia). simpl.
      rewrite SizeTFacts.mod_slot, Nat.sub_diag.
      replace (_head s + 1 - _numElements s + Z.of_nat (Z.to_nat (N - 1)))
        with (_head s) by lia.
      rewrite Z.mod_small by lia.
      rewrite list_lookup_insert_eq by lia. done.
    + rewrite lookup_contents_ge by (simpl; lia).
      symmetry. apply lookup_ge_None_2. simpl. lia.
Qed.

(** Removing an element drops the head of the queue. *)
Lemma contents_poll s :
  inv N s -> 0 < _numElements s ->
  contents bits N (set_numElements (_numElements s - 1) s)
  = drop 1 (contents bits N s).
Proof.
  intros Hs Hpos. pose proof Hs as (Hl & Hh & Hn).
  assert (Hs' : inv N (set_numElements (_numElements s - 1) s)).
  { unfold inv; simpl. repeat split; lia. }
  apply list_eq; intros i. rewrite lookup_drop.
  destruct (decide (i < Z.to_nat (_numElements s - 1))%nat) as [Hi|Hi].
  - rewrite !lookup_contents by (done || simpl; lia). simpl.
    do 3 f_equal. lia.
  - rewrite !lookup_contents_ge by (simpl; lia). done.
Qed.

(** The oldest element is the one in slot [tail_index()]. *)
Lemma head_contents s :
  inv N s -> 0 < _numElements s ->
  contents bits N s !! 0%nat = _buf s !! Z.to_nat (tail_index bits N s).
Proof.
  intros Hs Hpos. pose proof (tail_index_bounds bits N HN s Hs).
  change 0%nat with (Z.to_nat 0).
  rewrite lookup_contents_tail by (done || destruct Hs as (_&_&?); lia).
  by rewrite Z.add_0_r, Z.mod_small by lia.
Qed.

End Queue.

(** ** Contracts of the member functions *)

Section Contracts.

Context {T : Type}.
Variables bits N : Z.
Hypothesis HN : valid_Size bits N.

Implicit Types (s : RingBuf T) (obj v d : T) (force : bool).

(** C4. In a state holding [k < N] elements, [push(v, force)] with either
    value of [force] returns [true], writes [v] into [_buf[_head]] and
    leaves every other slot as it was, sets [_head] to
    [(_head + 1) mod N] and makes [size()] equal to [k + 1]; the queue
    gains [v] at its end. *)
Theorem push_not_full s obj force :
  inv N s -> _numElements s < N ->
  exists s',
    push bits N obj force s = Some (true, s') /\
    _buf s' = <[Z.to_nat (_head s) := obj]> (_buf s) /\
    _buf s' !! Z.to_nat (_head s) = Some obj /\
    _head s' = (_head s + 1) mod N /\
    size s' = size s + 1 /\
    contents bits N s' = contents bits N s ++ [obj].
Proof.
  intros Hs Hlt. pose proof Hs as (Hl & Hh & Hn).
  eexists. split.
  - apply push_space; [done..|]. unfold full, size, max_size.
    rewrite Z.geb_leb. apply Z.leb_gt. lia.
  - simpl. repeat split; [|by apply contents_push_space].
    apply list_lookup_insert_eq. lia.
Qed.

(** C5. On a full buffer ([_numElements == N]), [push(v, false)] returns
    [false] and the whole object, that is [_head], [_numElements] and
    every slot of [_buf], is left as it was. *)
Theorem push_full_rejected s obj :
  _numElements s = N -> push bits N obj false s = Some (false, s).
Proof.
  intros Hfull. apply push_full_reject. unfold full, size, max_size.
  rewrite Z.geb_leb. apply Z.leb_le. lia.
Qed.

(** C3. On a full buffer, [push(v, true)] returns [true], writes [v] into
    [_buf[_head]], advances [_head] by one modulo [N] and leaves
    [_numElements == N]; the oldest element leaves the queue (and is not
    part of the result, which is the Boolean alone) and [v] enters at its
    end, so that [peek(N - 1)] afterwards points to a slot holding [v]. *)
Theorem push_full_forced s obj :
  array_fits bits N -> inv N s -> _numElements s = N ->
  exists s' p,
    push bits N obj true s = Some (true, s') /\
    _buf s' = <[Z.to_nat (_head s) := obj]> (_buf s) /\
    _head s' = (_head s + 1) mod N /\
    _numElements s' = N /\
    contents bits N s' = drop 1 (contents bits N s) ++ [obj] /\
    peek bits N (N - 1) s' = Some (Some p, s') /\
    deref p s' = Some obj.
Proof.
  intros Hfit Hs Hfull. pose proof Hs as (Hl & Hh & Hn).
  pose proof HN as [H1 H2]. pose proof (bits_pos bits N HN) as Hb.
  pose proof (SizeTFacts.two_ptrdiff_max bits Hb) as Hp.
  unfold array_fits in Hfit.
  set (s' := mkRingBuf (<[Z.to_nat (_head s) := obj]> (_buf s))
                       ((_head s + 1) mod N) (_numElements s)).
  assert (Hs' : inv N s').
  { apply inv_push; [done| |lia]. apply Z.mod_pos_bound; lia. }
  assert (Hh' : 0 <= _head s' < N) by apply Hs'.
  assert (Ht : tail_index bits N s' = _head s').
  { rewrite tail_index_unwrapped by done. simpl.
    destruct (Z.eqb_spec (_numElements s) N); [done|lia]. }
  exists s', (_head s). split; [|split; [|split; [|split; [|split; [|split]]]]].
  - apply push_full_force; [done..|]. unfold full, size, max_size.
    rewrite Z.geb_leb. apply Z.leb_le. lia.
  - done.
  - done.
  - done.
  - by apply contents_push_full.
  - rewrite peek_run by done. unfold size. simpl.
    destruct (Z.ltb_spec (N - 1) (_numElements s)); [|lia].
    rewrite Ht. unfold SizeT.add.
    rewrite SizeTFacts.wrap_small by lia. do 3 f_equal.
    simpl. rewrite Zplus_mod_idemp_l.
    replace (_head s + 1 + (N - 1)) with (_head s + 1 * N) by lia.
    rewrite Z.mod_add by lia. apply Z.mod_small; lia.
  - unfold deref. simpl. apply list_lookup_insert_eq. lia.
Qed.

(** C6. [peek(index)] never changes the object. It returns [nullptr]
    exactly when [index >= size()]; otherwise it returns the address of
    slot [(tail_index() + index) mod N], which holds element [index] of
    the queue counted from the oldest (element [0]) to the newest
    (element [size() - 1]). [tail_index()] is [_head] when the buffer is
    full and [(_head - _numElements + N) mod N] otherwise. *)
Theorem peek_contract s index :
  array_fits bits N -> inv N s -> 0 <= index ->
  exists r,
    peek bits N index s = Some (r, s) /\
    (r = None <-> size s <= index) /\
    (index < size s ->
       r = Some ((tail_index bits N s + index) mod N) /\
       is_Some (deref ((tail_index bits N s + index) mod N) s) /\
       deref ((tail_index bits N s + index) mod N) s
         = contents bits N s !! Z.to_nat index) /\
    tail_index bits N s =
      (if _numElements s =? N then _head s
       else (_head s - _numElements s + N) mod N).
Proof.
  intros Hfit Hs Hidx. pose proof Hs as (Hl & Hh & Hn).
  pose proof HN as [H1 H2]. pose proof (bits_pos bits N HN) as Hb.
  pose proof (SizeTFacts.two_ptrdiff_max bits Hb) as Hp.
  pose proof (tail_index_bounds bits N HN s Hs) as Ht.
  unfold array_fits in Hfit.
  eexists. split; [by apply peek_run|]. unfold size.
  destruct (Z.ltb_spec index (_numElements s)) as [Hlt|Hge].
  - unfold SizeT.add. rewrite SizeTFacts.wrap_small by lia.
    split; [split; [done|lia]|]. split.
    + intros _. split; [done|]. unfold deref.
      pose proof (Z.mod_pos_bound (tail_index bits N s + index) N).
      split; [apply lookup_lt_is_Some_2; lia|].
      symmetry. apply lookup_contents_tail; [done..|lia].
    + rewrite tail_index_mod by done.
      destruct (Z.eqb_spec (_numElements s) N) as [->|].
      * replace (_head s - N) with (_head s + (-1) * N) by lia.
        rewrite Z.mod_add by lia. apply Z.mod_small; lia.
      * replace (_head s - _numElements s + N)
          with (_head s - _numElements s + 1 * N) by lia.
        by rewrite Z.mod_add by lia.
  - split; [split; [lia|done]|]. split; [lia|].
    rewrite tail_index_mod by done.
    destruct (Z.eqb_spec (_numElements s) N) as [->|].
    + replace (_head s - N) with (_head s + (-1) * N) by lia.
      rewrite Z.mod_add by lia. apply Z.mod_small; lia.
    + replace (_head s - _numElements s + N)
        with (_head s - _numElements s + 1 * N) by lia.
      by rewrite Z.mod_add by lia.
Qed.

(** C7. On a non-empty buffer [poll(destination)] returns [true], leaves
    in [destination] the oldest element, which is the one in slot
    [tail_index()], and decrements [_numElements], which removes that
    element from the queue; on an empty buffer it returns [false] and
    [destination] keeps its value. In both cases [_buf] is left as it was
    (and so is [_head]). *)
Theorem poll_contract s d :
  inv N s ->
  (empty s = false ->
     exists v s',
       poll bits N d s = Some ((true, v), s') /\
       _buf s !! Z.to_nat (tail_index bits N s) = Some v /\
       contents bits N s !! 0%nat = Some v /\
       contents bits N s' = drop 1 (contents bits N s) /\
       _numElements s' = _numElements s - 1 /\
       _buf s' = _buf s /\ _head s' = _head s) /\
  (empty s = true -> poll bits N d s = Some ((false, d), s)).
Proof.
  intros Hs. split; [|apply poll_empty].
  intros He. destruct (poll_nonempty bits N HN d s Hs He) as (v & Hv & Hp).
  assert (Hpos : 0 < _numElements s).
  { destruct Hs as (_ & _ & Hn). unfold empty, size in He. zprop. lia. }
  exists v, (set_numElements (_numElements s - 1) s).
  split_and!; try done.
  - by rewrite head_contents.
  - by apply contents_poll.
Qed.

End Contracts.

(** ** Sequences of calls *)

Section Sequences.

Context {T : Type}.
Variables bits N : Z.
Hypothesis HN : valid_Size bits N.

Implicit Types (s : RingBuf T) (obj v d : T) (force : bool).

Lemma full_false s : full N s = false <-> _numElements s < N.
Proof. unfold full, size, max_size. rewrite Z.geb_leb, Z.leb_gt. lia. Qed.

Lemma full_true s : full N s = true <-> N <= _numElements s.
Proof. unfold full, size, max_size. rewrite Z.geb_leb, Z.leb_le. lia. Qed.

Lemma empty_false s : empty s = false <-> _numElements s <> 0.
Proof. unfold empty, size. apply Z.eqb_neq. Qed.

Lemma clear_total s :
  inv N s -> exists s', clear s = Some (tt, s') /\ inv N s'.
Proof.
  intros (Hl & Hh & Hn). destruct HN as [H1 H2].
  eexists. split; [reflexivity|]. unfold inv; simpl. lia.
Qed.

Lemma push_total s obj force :
  inv N s -> exists b s', push bits N obj force s = Some (b, s') /\ inv N s'.
Proof.
  intros Hs. pose proof Hs as (Hl & Hh & Hn). destruct HN as [H1 H2].
  assert (Hm : 0 <= (_head s + 1) mod N < N) by (apply Z.mod_pos_bound; lia).
  destruct (full N s) eqn:Hf.
  - destruct force.
    + do 2 eexists. split; [by apply push_full_force|].
      by apply inv_push.
    + do 2 eexists. split; [by apply push_full_reject|done].
  - do 2 eexists. split; [by apply push_space|].
    apply full_false in Hf. apply inv_push; [done..|lia].
Qed.

Lemma peek_total s index :
  inv N s -> exists r, peek bits N index s = Some (r, s).
Proof. intros Hs. eexists. by apply peek_run. Qed.

Lemma inv_decrement s :
  inv N s -> _numElements s <> 0 ->
  inv N (set_numElements (_numElements s - 1) s).
Proof. intros (Hl & Hh & Hn) ?. unfold inv; simpl. lia. Qed.

Lemma poll_total s d :
  inv N s -> exists r s', poll bits N d s = Some (r, s') /\ inv N s'.
Proof.
  intros Hs. destruct (empty s) eqn:He.
  - do 2 eexists. split; [by apply poll_empty|done].
  - destruct (poll_nonempty bits N HN d s Hs He) as (v & _ & Hp).
    do 2 eexists. split; [done|].
    apply inv_decrement; [done|]. by apply empty_false.
Qed.

Lemma poll_discard_total s :
  inv N s -> exists b s', poll_discard bits s = Some (b, s') /\ inv N s'.
Proof.
  intros Hs. do 2 eexists. split; [by apply (poll_discard_run bits N)|].
  destruct (empty s) eqn:He; [done|].
  apply inv_decrement; [done|]. by apply empty_false.
Qed.

Lemma pull_total s (destination : option T) :
  inv N s ->
  exists r s', pull bits N destination s = Some (r, s') /\ inv N s'.
Proof.
  intros Hs. destruct destination as [d|]; unfold pull, bind, ret.
  - destruct (poll_total s d Hs) as (r & s' & -> & Hs'). eauto.
  - destruct (poll_discard_total s Hs) as (b & s' & -> & Hs'). eauto.
Qed.

(** Every call returns, and preserves the invariant. *)
Lemma do_call_inv (c : call T) s :
  inv N s -> exists s', do_call bits N c s = Some (tt, s') /\ inv N s'.
Proof.
  intros Hs. destruct c as [|obj force|obj force|index|d| |dst];
    unfold do_call, add, bind, ret.
  - by apply clear_total.
  - destruct (push_total s obj force Hs) as (b & s' & -> & Hs'). eauto.
  - destruct (push_total s obj force Hs) as (b & s' & -> & Hs'). eauto.
  - destruct (peek_total s index Hs) as (r & ->). eauto.
  - destruct (poll_total s d Hs) as (r & s' & -> & Hs'). eauto.
  - destruct (poll_discard_total s Hs) as (b & s' & -> & Hs'). eauto.
  - destruct (pull_total s dst Hs) as (r & s' & -> & Hs'). eauto.
Qed.

Lemma do_calls_inv (cs : list (call T)) s :
  inv N s -> exists s', do_calls bits N cs s = Some (tt, s') /\ inv N s'.
Proof.
  revert s. induction cs as [|c cs IH]; intros s Hs; simpl.
  - by exists s.
  - unfold bind. destruct (do_call_inv c s Hs) as (s1 & -> & Hs1).
    by apply IH.
Qed.

(** Pushing [l] into enough free space succeeds throughout and appends
    [l] to the queue. *)
Lemma push_all_contents (l : list T) s :
  inv N s -> _numElements s + Z.of_nat (length l) <= N ->
  exists s',
    push_all bits N l s = Some (repeat true (length l), s') /\
    inv N s' /\
    contents bits N s' = contents bits N s ++ l /\
    _numElements s' = _numElements s + Z.of_nat (length l).
Proof.
  revert s. induction l as [|x l IH]; intros s Hs Hlen; simpl in *.
  - exists s. rewrite app_nil_r. split_and!; [done..|lia].
  - pose proof Hs as (Hl & Hh & Hn). destruct HN as [H1 H2].
    assert (Hlt : _numElements s < N) by lia.
    unfold bind. rewrite (push_space bits N HN) by (done || by apply full_false).
    set (s1 := mkRingBuf _ _ _).
    assert (Hs1 : inv N s1).
    { apply inv_push; [done| |lia]. apply Z.mod_pos_bound; lia. }
    destruct (IH s1 Hs1) as (s' & -> & Hs' & Hc & Hcount); [simpl; lia|].
    exists s'. split_and!; [done|done| |simpl in Hcount; lia].
    rewrite Hc. unfold s1. rewrite contents_push_space by done.
    by rewrite <- app_assoc.
Qed.

(** Polling [n] times a queue of at least [n] elements succeeds
    throughout and delivers its first [n] elements in order. *)
Lemma poll_n_contents (n : nat) s d :
  inv N s -> (n <= length (contents bits N s))%nat ->
  exists s',
    poll_n bits N n d s
      = Some (map (pair true) (take n (contents bits N s)), s') /\
    inv N s' /\
    contents bits N s' = drop n (contents bits N s).
Proof.
  revert s d. induction n as [|n IH]; intros s d Hs Hlen; simpl.
  - exists s. by rewrite drop_0.
  - rewrite length_contents in Hlen by done.
    pose proof Hs as (Hl & Hh & Hn).
    assert (He : empty s = false) by (apply empty_false; lia).
    destruct (poll_nonempty bits N HN d s Hs He) as (v & Hv & Hp).
    rewrite <- head_contents in Hv by (done || lia).
    unfold bind. rewrite Hp. simpl.
    set (s1 := set_numElements _ s).
    assert (Hs1 : inv N s1) by (apply inv_decrement; [done|lia]).
    assert (Hc1 : contents bits N s1 = drop 1 (contents bits N s))
      by (apply contents_poll; [done..|lia]).
    destruct (contents bits N s) as [|v0 q] eqn:Hq; [done|].
    simpl in Hv, Hc1. injection Hv as ->. rewrite drop_0 in Hc1.
    destruct (IH s1 v Hs1) as (s' & -> & Hs' & Hc).
    { rewrite length_contents by done. simpl. lia. }
    exists s'. rewrite Hc1 in *. by split_and!.
Qed.

End Sequences.

(** ** Properties of the class as a whole *)

Section Behaviour.

Context {T : Type}.
Variables bits N : Z.
Hypothesis HN : valid_Size bits N.

Implicit Types (s : RingBuf T) (obj v d : T) (force : bool).

(** C1. From any empty buffer of capacity [N], [N] calls [push(x)] with
    the values of [l] (distinct or not) all return [true] and fill the
    buffer; [N] calls of [poll(destination)] then all return [true] and
    deliver the values of [l] in the order they were pushed; afterwards
    [empty()] holds and [size()] is [0]. *)
Theorem round_trip s (l : list T) d :
  inv N s -> empty s = true -> length l = Z.to_nat N ->
  exists s1 s2,
    push_all bits N l s = Some (repeat true (length l), s1) /\
    full N s1 = true /\
    poll_n bits N (length l) d s1 = Some (map (pair true) l, s2) /\
    empty s2 = true /\
    size s2 = 0.
Proof.
  intros Hs He Hlen. unfold empty, size in He. zprop.
  pose proof HN as [H1 H2].
  destruct (push_all_contents bits N HN l s Hs) as (s1 & Hpush & Hs1 & Hc1 & Hn1);
    [lia|].
  assert (Hnil : contents bits N s = []).
  { apply length_zero_iff_nil. rewrite length_contents by done. lia. }
  rewrite Hnil in Hc1. simpl in Hc1.
  destruct (poll_n_contents bits N HN (length l) s1 d Hs1) as (s2 & Hpoll & Hs2 & Hc2);
    [by rewrite Hc1|].
  rewrite Hc1, firstn_all in Hpoll. rewrite Hc1, drop_all in Hc2.
  assert (Hn2 : _numElements s2 = 0).
  { apply (f_equal length) in Hc2. rewrite length_contents in Hc2 by done.
    destruct Hs2 as (_ & _ & ?). simpl in Hc2. lia. }
  exists s1, s2. split_and!; [done| |done| |done].
  - apply (full_true N). lia.
  - unfold empty, size. by rewrite Hn2.
Qed.

(** C2. The constructor followed by any sequence of calls of [clear],
    [push] and [add] (forced or not), [peek], [poll] and [pull] returns,
    and leaves a state with [0 <= _numElements <= N] and
    [0 <= _head < N]; so [size()] is never negative and never exceeds
    [max_size()]. *)
Theorem invariant_preserved (raw : RingBuf T) (cs : list (call T)) :
  length (_buf raw) = Z.to_nat N ->
  exists s0 s,
    RingBufCPP raw = Some (tt, s0) /\
    do_calls bits N cs s0 = Some (tt, s) /\
    0 <= _numElements s <= N /\
    0 <= _head s < N /\
    0 <= size s <= max_size N.
Proof.
  intros Hl. destruct HN as [H1 H2].
  set (s0 := set_head 0 (set_numElements 0 raw)).
  assert (Hs0 : inv N s0) by (unfold inv; simpl; lia).
  destruct (do_calls_inv bits N HN cs s0 Hs0) as (s & Hrun & _ & Hh & Hn).
  exists s0, s. unfold size, max_size. split_and!; (done || lia).
Qed.

(** C8. In a state satisfying the invariant every array access of the
    member functions is within [[0, N)]: slot [_head] written by [push],
    slot [tail_index()] read by [poll], and the slot
    [(tail_index() + index) % N] whose address [peek] forms, for any
    [index]. No call faults. *)
Theorem no_out_of_range_access s :
  inv N s ->
  in_bounds N (_head s) = true /\
  in_bounds N (tail_index bits N s) = true /\
  (forall index,
     in_bounds N (SizeT.add bits (tail_index bits N s) index mod N) = true) /\
  (forall obj, is_Some (store_buf N (_head s) obj s)) /\
  is_Some (load_buf N (tail_index bits N s) s) /\
  (forall c : call T, is_Some (do_call bits N c s)).
Proof.
  intros Hs. pose proof (tail_index_bounds bits N HN s Hs) as Ht.
  pose proof Hs as (Hl & Hh & Hn). destruct HN as [H1 H2].
  assert (Hb : forall i, 0 <= i < N -> in_bounds N i = true).
  { intros i Hi. unfold in_bounds.
    apply andb_true_intro. split; [apply Z.leb_le|apply Z.ltb_lt]; lia. }
  split_and!.
  - by apply Hb.
  - by apply Hb.
  - intros index. apply Hb. apply Z.mod_pos_bound. lia.
  - intros obj. unfold store_buf. rewrite Hb by done.
    rewrite bool_decide_true by lia. by eexists.
  - unfold load_buf. rewrite Hb by done.
    destruct (lookup_lt_is_Some_2 (_buf s) (Z.to_nat (tail_index bits N s)))
      as [v ->]; [lia|]. by eexists.
  - intros c. destruct (do_call_inv bits N HN c s Hs) as (s' & -> & _).
    by eexists.
Qed.

(** C10. [add(obj, force)] has the result and the effect of
    [push(obj, force)]; [pull(&d)] those of [poll(d)]; [pull(nullptr)]
    those of [poll()]. [poll()] returns [true] exactly when the buffer is
    not empty, in which case it decrements [_numElements]; it leaves
    [_buf] and [_head] as they were. *)
Theorem alias_equivalence s obj force d :
  inv N s ->
  add bits N obj force s = push bits N obj force s /\
  pull bits N (Some d) s
    = (fun r => (fst (fst r), Some (snd (fst r)), snd r)) <$> poll bits N d s /\
  pull bits N None s
    = (fun r => (fst r, None, snd r)) <$> poll_discard bits s /\
  exists s',
    poll_discard bits s = Some (negb (empty s), s') /\
    _numElements s' =
      (if empty s then _numElements s else _numElements s - 1) /\
    _buf s' = _buf s /\ _head s' = _head s.
Proof.
  intros Hs. split_and!.
  - reflexivity.
  - unfold pull, bind, ret. simpl.
    by destruct (poll bits N d s) as [[[b d'] s']|].
  - unfold pull, bind, ret. simpl.
    by destruct (poll_discard bits s) as [[b s']|].
  - eexists. split; [by apply (poll_discard_run bits N)|].
    by destruct (empty s).
Qed.

End Behaviour.

(** ** Instances *)

Ltac decided :=
  match goal with
  | |- ?P => apply (bool_decide_eq_true_1 P); vm_compute; reflexivity
  end.

Import Sample.

(** The scenario of a capacity-3 buffer: the unforced fourth push is
    rejected and changes nothing; the forced one replaces the oldest
    element; polling delivers 2, 3, 4 and then fails. *)
Example scenario_run :
  fst <$> (_ <- RingBufCPP (T := Z) ;; scenario) st_raw =
  Some ([true; true; true; false; true],
        ([Some 1; Some 2; Some 3], 3),
        ([Some 2; Some 3; Some 4], 3),
        [(true, 2); (true, 3); (true, 4); (false, 4)],
        true).
Proof. vm_compute. reflexivity. Qed.

(** Where the array could not exist ([Size > PTRDIFF_MAX]) the sum
    [tail_index() + index] of [peek] may wrap: here [peek(4)] points to
    slot 0 although the newest element is in slot 3. *)
Example peek_oversized :
  ~ array_fits 3 5 /\
  fst <$> peek 3 5 4 st_oversized = Some (Some 0) /\
  contents 3 5 st_oversized !! 4%nat = _buf st_oversized !! 3%nat.
Proof.
  split; [|by vm_compute].
  unfold array_fits, SizeT.ptrdiff_max. simpl. lia.
Qed.

Lemma round_trip_witness :
  valid_Size bits N /\ inv N st_empty /\ empty st_empty = true /\
  length [10; 20; 30] = Z.to_nat N /\
  exists s1 s2,
    push_all bits N [10; 20; 30] st_empty
      = Some (repeat true (length [10; 20; 30]), s1) /\
    full N s1 = true /\
    poll_n bits N (length [10; 20; 30]) 0 s1
      = Some (map (pair true) [10; 20; 30], s2) /\
    empty s2 = true /\
    size s2 = 0.
Proof.
  split_and!; [decided|decided|reflexivity|reflexivity|].
  apply (round_trip bits N); [decided|decided|reflexivity|reflexivity].
Defined.

Lemma invariant_preserved_witness :
  valid_Size bits N /\ length (_buf st_raw) = Z.to_nat N /\
  exists s0 s,
    RingBufCPP st_raw = Some (tt, s0) /\
    do_calls bits N calls s0 = Some (tt, s) /\
    0 <= _numElements s <= N /\
    0 <= _head s < N /\
    0 <= size s <= max_size N.
Proof.
  split_and!; [decided|reflexivity|].
  apply (invariant_preserved bits N); [decided|reflexivity].
Defined.

Lemma push_full_forced_witness :
  valid_Size bits N /\ array_fits bits N /\ inv N st_full /\
  _numElements st_full = N /\
  exists s' p,
    push bits N 4 true st_full = Some (true, s') /\
    _buf s' = <[Z.to_nat (_head st_full) := 4]> (_buf st_full) /\
    _head s' = (_head st_full + 1) mod N /\
    _numElements s' = N /\
    contents bits N s' = drop 1 (contents bits N st_full) ++ [4] /\
    peek bits N (N - 1) s' = Some (Some p, s') /\
    deref p s' = Some 4.
Proof.
  split_and!; [decided|decided|decided|reflexivity|].
  apply (push_full_forced bits N); [decided|decided|decided|reflexivity].
Defined.

Lemma push_not_full_witness :
  valid_Size bits N /\ inv N st_partial /\ _numElements st_partial < N /\
  exists s',
    push bits N 30 false st_partial = Some (true, s') /\
    _buf s' = <[Z.to_nat (_head st_partial) := 30]> (_buf st_partial) /\
    _buf s' !! Z.to_nat (_head st_partial) = Some 30 /\
    _head s' = (_head st_partial + 1) mod N /\
    size s' = size st_partial + 1 /\
    contents bits N s' = contents bits N st_partial ++ [30].
Proof.
  split_and!; [decided|decided|decided|].
  apply (push_not_full bits N); [decided|decided|decided].
Defined.

Lemma push_full_rejected_witness :
  _numElements st_full = N /\
  push bits N 4 false st_full = Some (false, st_full).
Proof.
  split; [reflexivity|]. apply (push_full_rejected bits N). reflexivity.
Defined.

Lemma peek_contract_witness :
  valid_Size bits N /\ array_fits bits N /\ inv N st_full /\ 0 <= 2 /\
  exists r,
    peek bits N 2 st_full = Some (r, st_full) /\
    (r = None <-> size st_full <= 2) /\
    (2 < size st_full ->
       r = Some ((tail_index bits N st_full + 2) mod N) /\
       is_Some (deref ((tail_index bits N st_full + 2) mod N) st_full) /\
       deref ((tail_index bits N st_full + 2) mod N) st_full
         = contents bits N st_full !! Z.to_nat 2) /\
    tail_index bits N st_full =
      (if _numElements st_full =? N then _head st_full
       else (_head st_full - _numElements st_full + N) mod N).
Proof.
  split_and!; [decided|decided|decided|lia|].
  apply (peek_contract bits N); [decided|decided|decided|lia].
Defined.

Lemma poll_contract_witness :
  valid_Size bits N /\ inv N st_partial /\
  (empty st_partial = false ->
     exists v s',
       poll bits N 0 st_partial = Some ((true, v), s') /\
       _buf st_partial !! Z.to_nat (tail_index bits N st_partial) = Some v /\
       contents bits N st_partial !! 0%nat = Some v /\
       contents bits N s' = drop 1 (contents bits N st_partial) /\
       _numElements s' = _numElements st_partial - 1 /\
       _buf s' = _buf st_partial /\ _head s' = _head st_partial) /\
  (empty st_partial = true ->
     poll bits N 0 st_partial = Some ((false, 0), st_partial)).
Proof.
  split; [decided|]. split; [decided|].
  apply (poll_contract bits N); decided.
Defined.

Lemma no_out_of_range_access_witness :
  valid_Size bits N /\ inv N st_full /\
  in_bounds N (_head st_full) = true /\
  in_bounds N (tail_index bits N st_full) = true /\
  (forall index,
     in_bounds N (SizeT.add bits (tail_index bits N st_full) index mod N)
       = true) /\
  (forall obj, is_Some (store_buf N (_head st_full) obj st_full)) /\
  is_Some (load_buf N (tail_index bits N st_full) st_full) /\
  (forall c : call Z, is_Some (do_call bits N c st_full)).
Proof.
  split; [decided|]. split; [decided|].
  apply (no_out_of_range_access bits N); decided.
Defined.

Lemma alias_equivalence_witness :
  valid_Size bits N /\ inv N st_partial /\
  add bits N 30 true st_partial = push bits N 30 true st_partial /\
  pull bits N (Some 0) st_partial
    = (fun r => (fst (fst r), Some (snd (fst r)), snd r))
        <$> poll bits N 0 st_partial /\
  pull bits N None st_partial
    = (fun r => (fst r, None, snd r)) <$> poll_discard bits st_partial /\
  exists s',
    poll_discard bits st_partial = Some (negb (empty st_partial), s') /\
    _numElements s' =
      (if empty st_partial then _numElements st_partial
       else _numElements st_partial - 1) /\
    _buf s' = _buf st_partial /\ _head s' = _head st_partial.
Proof.
  split; [decided|]. split; [decided|].
  apply (alias_equivalence bits N); decided.
Defined.

(** * Further properties *)

(** ** Calls in terms of the queue *)

Section QueueSteps.

Context {T : Type}.
Variables bits N : Z.
Hypothesis HN : valid_Size bits N.

Implicit Types (s : RingBuf T) (obj v d : T) (force : bool).

Lemma contents_empty s : _numElements s = 0 -> contents bits N s = [].
Proof. intros Hn. unfold contents. by rewrite Hn. Qed.

Lemma empty_true s : empty s = true <-> _numElements s = 0.
Proof. unfold empty, size. apply Z.eqb_eq. Qed.

(** [peek] in terms of [_head] and [_numElements]. *)
Lemma peek_slot s i :
  array_fits bits N -> inv N s -> 0 <= i < _numElements s ->
  peek bits N i s
    = Some (Some ((_head s - _numElements s + i) mod N), s).
Proof.
  intros Hfit Hs Hi. pose proof Hs as (Hl & Hh & Hn).
  pose proof HN as [H1 H2]. pose proof (bits_pos bits N HN) as Hb.
  pose proof (SizeTFacts.two_ptrdiff_max bits Hb) as Hp.
  pose proof (tail_index_bounds bits N HN s Hs) as Ht.
  unfold array_fits in Hfit.
  rewrite (peek_run bits N HN) by done. unfold size.
  destruct (Z.ltb_spec i (_numElements s)); [|lia].
  unfold SizeT.add. rewrite SizeTFacts.wrap_small by lia.
  by rewrite (tail_index_mod bits N HN s Hs), Zplus_mod_idemp_l.
Qed.

Lemma peek_none s i :
  inv N s -> _numElements s <= i -> peek bits N i s = Some (None, s).
Proof.
  intros Hs Hi. rewrite (peek_run bits N HN) by done. unfold size.
  destruct (Z.ltb_spec i (_numElements s)); [lia|done].
Qed.

(** The slot of element [i] of the queue. *)
Lemma deref_slot s i :
  inv N s -> 0 <= i < _numElements s ->
  deref ((_head s - _numElements s + i) mod N) s
    = contents bits N s !! Z.to_nat i.
Proof.
  intros Hs Hi. unfold deref.
  rewrite (lookup_contents bits N HN) by (done || lia).
  by rewrite Z2Nat.id by lia.
Qed.

Lemma push_queue s obj force :
  inv N s ->
  exists s',
    push bits N obj force s = Some (negb (full N s) || force, s') /\
    inv N s' /\
    contents bits N s' =
      (if bool_decide (length (contents bits N s) < Z.to_nat N)%nat
       then contents bits N s ++ [obj]
       else if force then drop 1 (contents bits N s) ++ [obj]
       else contents bits N s).
Proof.
  intros Hs. pose proof Hs as (Hl & Hh & Hn). pose proof HN as [H1 H2].
  assert (Hm : 0 <= (_head s + 1) mod N < N) by (apply Z.mod_pos_bound; lia).
  rewrite (length_contents bits N) by done.
  destruct (full N s) eqn:Hf; simpl.
  - apply (full_true N) in Hf as Hge.
    assert (Hfull : _numElements s = N) by lia.
    rewrite bool_decide_false by lia. destruct force.
    + eexists. split; [by apply (push_full_force bits N)|].
      split; [by apply inv_push|]. by apply (contents_push_full bits N).
    + exists s. split; [by apply push_full_reject|done].
  - apply (full_false N) in Hf as Hlt.
    rewrite bool_decide_true by lia.
    eexists. split; [by apply (push_space bits N)|].
    split; [apply inv_push; [done..|lia]|].
    by apply (contents_push_space bits N).
Qed.

Lemma poll_queue s d :
  inv N s ->
  exists s',
    poll bits N d s
      = Some ((negb (empty s), default d (contents bits N s !! 0%nat)), s') /\
    inv N s' /\
    contents bits N s' = drop 1 (contents bits N s) /\
    _buf s' = _buf s /\ _head s' = _head s.
Proof.
  intros Hs. pose proof Hs as (Hl & Hh & Hn). destruct (empty s) eqn:He.
  - apply empty_true in He as Hz. exists s.
    rewrite (contents_empty s Hz). simpl.
    split; [by apply poll_empty|done].
  - apply empty_false in He as Hnz.
    destruct (poll_nonempty bits N HN d s Hs He) as (v & Hv & Hp).
    rewrite <- (head_contents bits N HN) in Hv by (done || lia).
    eexists. rewrite Hv. simpl. split; [done|].
    split; [by apply inv_decrement|].
    split; [apply (contents_poll bits N HN); [done|lia]|done].
Qed.

Lemma poll_discard_queue s :
  inv N s ->
  exists s',
    poll_discard bits s = Some (negb (empty s), s') /\
    inv N s' /\
    contents bits N s' = drop 1 (contents bits N s) /\
    _buf s' = _buf s /\ _head s' = _head s.
Proof.
  intros Hs. pose proof Hs as (Hl & Hh & Hn).
  eexists. split; [by apply (poll_discard_run bits N)|].
  destruct (empty s) eqn:He.
  - apply empty_true in He as Hz. by rewrite (contents_empty s Hz).
  - apply empty_false in He as Hnz.
    split; [by apply inv_decrement|].
    split; [apply (contents_poll bits N HN); [done|lia]|done].
Qed.

Lemma do_call_queue (c : call T) s :
  inv N s ->
  exists s',
    do_call bits N c s = Some (tt, s') /\ inv N s' /\
    contents bits N s' = queue_step N c (contents bits N s).
Proof.
  intros Hs. pose proof HN as [H1 H2].
  destruct c as [|obj force|obj force|index|d| |dst];
    unfold do_call, add, bind, ret; simpl.
  - destruct (clear_total bits N HN s Hs) as (s' & Hc & Hs').
    exists s'. split; [done|]. split; [done|].
    apply contents_empty. unfold clear, bind, modify in Hc. by simplify_eq.
  - destruct (push_queue s obj force Hs) as (s' & -> & Hs' & Hc). eauto.
  - destruct (push_queue s obj force Hs) as (s' & -> & Hs' & Hc). eauto.
  - destruct (peek_total bits N HN s index Hs) as (r & ->). eauto.
  - destruct (poll_queue s d Hs) as (s' & -> & Hs' & Hc & _). eauto.
  - destruct (poll_discard_queue s Hs) as (s' & -> & Hs' & Hc & _). eauto.
  - destruct dst as [d|]; unfold pull, bind, ret.
    + destruct (poll_queue s d Hs) as (s' & -> & Hs' & Hc & _). eauto.
    + destruct (poll_discard_queue s Hs) as (s' & -> & Hs' & Hc & _). eauto.
Qed.

End QueueSteps.

(** ** The buffer as a bounded queue *)

Section BoundedQueue.

Context {T : Type}.
Variables bits N : Z.
Hypothesis HN : valid_Size bits N.

Implicit Types (s : RingBuf T) (obj v d : T) (force : bool).

(** X1. [clear()], and so the constructor, brings any values of [_head]
    and [_numElements] to an empty buffer that satisfies the invariant:
    [_head] and [size()] are 0, [empty()] holds, [full()] does not, the
    queue is empty, and [_buf] is not written. *)
Theorem clear_resets s :
  length (_buf s) = Z.to_nat N ->
  exists s',
    clear s = Some (tt, s') /\
    RingBufCPP s = Some (tt, s') /\
    inv N s' /\
    _buf s' = _buf s /\ _head s' = 0 /\ size s' = 0 /\
    empty s' = true /\ full N s' = false /\
    contents bits N s' = [].
Proof.
  intros Hl. destruct HN as [H1 H2].
  exists (set_head 0 (set_numElements 0 s)).
  split_and!; try done.
  - unfold inv; simpl. lia.
  - apply (full_false N). simpl. lia.
Qed.

(** X2. Under the invariant [size()] is the length of the queue,
    [empty()] holds exactly when the queue has no element, [full()]
    (tested with [>=]) holds exactly when [size() == max_size()], and a
    buffer is never both empty and full. *)
Theorem capacity_predicates s :
  inv N s ->
  size s = Z.of_nat (length (contents bits N s)) /\
  (empty s = true <-> contents bits N s = []) /\
  (full N s = true <-> size s = max_size N) /\
  (full N s = true <-> length (contents bits N s) = Z.to_nat N) /\
  ~ (empty s = true /\ full N s = true).
Proof.
  intros Hs. pose proof Hs as (Hl & Hh & Hn). destruct HN as [H1 H2].
  pose proof (length_contents bits N s Hs) as Hlen.
  rewrite (full_true N), (empty_true s). unfold size, max_size.
  split_and!; try lia.
  - split; [by apply contents_empty|].
    intros Hq. rewrite Hq in Hlen. simpl in Hlen. lia.
Qed.

(** X3. [push] returns [false] exactly when the buffer is full and
    [force] is false, and the object is then unchanged; [size()] grows by
    one exactly when the buffer was not full. *)
Theorem push_result s obj force :
  inv N s ->
  exists s',
    push bits N obj force s = Some (negb (full N s) || force, s') /\
    inv N s' /\
    (negb (full N s) || force = false -> s' = s) /\
    size s' = (if full N s then size s else size s + 1).
Proof.
  intros Hs. pose proof Hs as (Hl & Hh & Hn). destruct HN as [H1 H2].
  assert (Hm : 0 <= (_head s + 1) mod N < N) by (apply Z.mod_pos_bound; lia).
  destruct (full N s) eqn:Hf; simpl.
  - destruct force.
    + eexists. split; [by apply (push_full_force bits N)|].
      split; [by apply inv_push|done].
    + exists s. split; [by apply push_full_reject|done].
  - apply (full_false N) in Hf as Hlt.
    eexists. split; [by apply (push_space bits N)|].
    split; [apply inv_push; [done..|lia]|done].
Qed.

(** X4. Any sequence of calls returns and acts on the queue held by the
    buffer as on a FIFO queue bounded by [N]: [clear] empties it, a push
    appends when there is room and otherwise, if forced, drops the
    oldest element and appends, [peek] leaves it, and [poll] and [pull]
    drop the oldest element. *)
Theorem calls_refine_queue (cs : list (call T)) s :
  inv N s ->
  exists s',
    do_calls bits N cs s = Some (tt, s') /\
    inv N s' /\
    contents bits N s' = queue_steps N cs (contents bits N s).
Proof.
  revert s. induction cs as [|c cs IH]; intros s Hs; simpl.
  - by exists s.
  - unfold bind.
    destruct (do_call_queue bits N HN c s Hs) as (s1 & -> & Hs1 & Hc1).
    destruct (IH s1 Hs1) as (s' & Hrun & Hs' & Hc).
    exists s'. unfold queue_steps in *. simpl. by rewrite <- Hc1.
Qed.

(** X5. Forced pushes always return [true], and after pushing the values
    of [l] the queue holds the last [N] elements of what it held
    followed by [l]. *)
Theorem forced_pushes_keep_newest (l : list T) s :
  inv N s ->
  exists s',
    push_each bits N true l s = Some (repeat true (length l), s') /\
    inv N s' /\
    contents bits N s' = newest N (contents bits N s ++ l).
Proof.
  revert s. induction l as [|x l IH]; intros s Hs; simpl.
  - exists s. split; [done|]. split; [done|].
    pose proof (length_contents bits N s Hs) as Hlen.
    destruct Hs as (_ & _ & Hn). unfold newest.
    rewrite app_nil_r.
    replace (length (contents bits N s) - Z.to_nat N)%nat with 0%nat by lia.
    done.
  - unfold bind.
    destruct (push_queue bits N HN s x true Hs) as (s1 & -> & Hs1 & Hc1).
    rewrite orb_true_r.
    destruct (IH s1 Hs1) as (s' & -> & Hs' & Hc).
    exists s'. split; [done|]. split; [done|].
    rewrite Hc, Hc1. clear Hc Hc1.
    pose proof (length_contents bits N s Hs) as Hlen.
    destruct Hs as (_ & _ & Hn). destruct HN as [H1 H2].
    case_bool_decide as Hlt.
    + by rewrite <- app_assoc.
    + destruct (contents bits N s) as [|v0 q]; simpl in *; [lia|].
      rewrite drop_0. unfold newest. rewrite <- app_assoc. simpl.
      rewrite !length_app. simpl.
      replace (S (length q + S (length l)) - Z.to_nat N)%nat
        with (S (length q + S (length l) - Z.to_nat N)) by lia.
      done.
Qed.

(** X6. Unforced pushes are accepted while there is room and rejected
    afterwards: pushing the values of [l] returns [true] for the first
    [max_size() - size()] of them and [false] for the others, and the
    queue then holds the first [N] elements of what it held followed by
    [l]. *)
Theorem unforced_pushes_keep_oldest (l : list T) s :
  inv N s ->
  exists s',
    push_each bits N false l s
      = Some (repeat true
                (Z.to_nat (max_size N - size s) `min` length l)
              ++ repeat false
                   (length l - Z.to_nat (max_size N - size s)),
              s') /\
    inv N s' /\
    contents bits N s' = take (Z.to_nat N) (contents bits N s ++ l).
Proof.
  unfold max_size, size. revert s.
  induction l as [|x l IH]; intros s Hs; simpl.
  - exists s. rewrite Nat.min_0_r, (app_nil_r (contents bits N s)). simpl.
    split; [done|]. split; [done|].
    rewrite take_ge; [done|].
    rewrite (length_contents bits N) by done. destruct Hs as (_&_&?). lia.
  - unfold bind.
    destruct (push_queue bits N HN s x false Hs) as (s1 & -> & Hs1 & Hc1).
    destruct (IH s1 Hs1) as (s' & -> & Hs' & Hc).
    exists s'. rewrite Hc, Hc1. clear Hc IH.
    pose proof (length_contents bits N s Hs) as Hlen.
    pose proof (length_contents bits N s1 Hs1) as Hlen1.
    rewrite Hc1 in Hlen1. clear Hc1.
    destruct Hs as (_ & _ & Hn). destruct Hs1 as (_ & _ & Hn1).
    destruct HN as [H1 H2]. rewrite orb_false_r.
    case_bool_decide as Hlt.
    + rewrite length_app in Hlen1. simpl in Hlen1.
      assert (Hf : full N s = false) by (apply (full_false N); lia).
      rewrite Hf. simpl.
      replace (Z.to_nat (N - _numElements s))
        with (S (Z.to_nat (N - _numElements s1))) by lia.
      simpl. by rewrite <- app_assoc.
    + assert (Hf : full N s = true) by (apply (full_true N); lia).
      rewrite Hf. simpl.
      replace (Z.to_nat (N - _numElements s1)) with 0%nat by lia.
      replace (Z.to_nat (N - _numElements s)) with 0%nat by lia.
      simpl. rewrite Nat.sub_0_r.
      split; [done|]. split; [done|].
      rewrite !take_app_le by lia. done.
Qed.

(** X7. [pull], with or without a destination, returns [true] exactly
    when the buffer is not empty and removes the oldest element of the
    queue; a destination then holds that element, and keeps its value
    when the buffer is empty. [_buf] and [_head] are left as they were. *)
Theorem pull_queue s (destination : option T) :
  inv N s ->
  exists s',
    pull bits N destination s
      = Some ((negb (empty s),
               (fun d => default d (contents bits N s !! 0%nat))
                 <$> destination), s') /\
    inv N s' /\
    contents bits N s' = drop 1 (contents bits N s) /\
    _buf s' = _buf s /\ _head s' = _head s.
Proof.
  intros Hs. destruct destination as [d|]; unfold pull, bind, ret; simpl.
  - destruct (poll_queue bits N HN s d Hs) as (s' & -> & Hrest). eauto.
  - destruct (poll_discard_queue bits N HN s Hs) as (s' & -> & Hrest). eauto.
Qed.

End BoundedQueue.

(** ** Pointers returned by [peek], and the loops of the example program *)

Section Pointers.

Context {T : Type}.
Variables bits N : Z.
Hypothesis HN : valid_Size bits N.
Hypothesis Hfit : array_fits bits N.

Implicit Types (s : RingBuf T) (obj v d : T) (force : bool).

Lemma slot_bounds s i :
  0 <= (_head s - _numElements s + i) mod N < N.
Proof. destruct HN. apply Z.mod_pos_bound. lia. Qed.

(** Reading [*p] for the pointer that [peek(i)] returns. *)
Lemma load_slot s i v :
  inv N s -> 0 <= i < _numElements s ->
  contents bits N s !! Z.to_nat i = Some v ->
  load_buf N ((_head s - _numElements s + i) mod N) s = Some (v, s).
Proof.
  intros Hs Hi Hv. pose proof (slot_bounds s i) as Hb.
  rewrite <- (deref_slot bits N HN) in Hv by done. unfold deref in Hv.
  unfold load_buf, in_bounds. rewrite Hv.
  destruct (Z.leb_spec 0 ((_head s - _numElements s + i) mod N)); [|lia].
  destruct (Z.ltb_spec ((_head s - _numElements s + i) mod N) N); [|lia].
  done.
Qed.

(** X8. After values are pushed into enough free space, [peek(i)] points
    to element [i] of the old queue followed by the pushed values, in
    that order, and [peek] at the new [size()] returns [nullptr]. *)
Theorem fifo_peek_after_pushes (l : list T) s (i : nat) :
  inv N s -> size s + Z.of_nat (length l) <= max_size N ->
  (i < length (contents bits N s ++ l))%nat ->
  exists s' p,
    push_all bits N l s = Some (repeat true (length l), s') /\
    peek bits N (Z.of_nat i) s' = Some (Some p, s') /\
    deref p s' = (contents bits N s ++ l) !! i /\
    peek bits N (Z.of_nat (length (contents bits N s ++ l))) s'
      = Some (None, s').
Proof.
  unfold size, max_size. intros Hs Hroom Hi.
  destruct (push_all_contents bits N HN l s Hs Hroom)
    as (s' & Hpush & Hs' & Hc & Hn).
  pose proof (length_contents bits N s' Hs') as Hlen. rewrite Hc in Hlen.
  pose proof Hs' as (_ & _ & Hn').
  exists s', ((_head s' - _numElements s' + Z.of_nat i) mod N).
  split; [done|]. split; [apply (peek_slot bits N HN); [done..|lia]|].
  split.
  - rewrite (deref_slot bits N HN) by (done || lia).
    by rewrite Nat2Z.id, Hc.
  - apply (peek_none bits N HN); [done|lia].
Qed.

(** X9. A pointer obtained from [peek(i)] stays the answer of [peek(i)]
    and keeps its pointee when an element is pushed into free space. *)
Theorem peek_stable_under_push s i obj force :
  inv N s -> _numElements s < N -> 0 <= i < size s ->
  exists p s',
    peek bits N i s = Some (Some p, s) /\
    push bits N obj force s = Some (true, s') /\
    peek bits N i s' = Some (Some p, s') /\
    deref p s' = deref p s.
Proof.
  unfold size. intros Hs Hlt Hi. pose proof Hs as (Hl & Hh & Hn).
  pose proof HN as [H1 H2].
  set (s' := mkRingBuf (<[Z.to_nat (_head s) := obj]> (_buf s))
                       ((_head s + 1) mod N) (_numElements s + 1)).
  assert (Hs' : inv N s').
  { apply inv_push; [done| |lia]. apply Z.mod_pos_bound; lia. }
  assert (Hp : (_head s' - _numElements s' + i) mod N
               = (_head s - _numElements s + i) mod N).
  { simpl. rewrite SizeTFacts.mod_slot. f_equal. lia. }
  exists ((_head s - _numElements s + i) mod N), s'. split_and!.
  - by apply (peek_slot bits N HN).
  - apply (push_space bits N HN); [done|]. by apply (full_false N).
  - rewrite <- Hp. apply (peek_slot bits N HN); [done..|simpl; lia].
  - rewrite <- Hp at 1.
    rewrite !(deref_slot bits N HN) by (done || simpl; lia).
    unfold s'. rewrite (contents_push_space bits N HN) by done.
    apply lookup_app_l. rewrite (length_contents bits N) by done. lia.
Qed.

(** X10. When the oldest element is polled, the pointer that
    [peek(i + 1)] returned is what [peek(i)] returns afterwards, with the
    same pointee. *)
Theorem peek_shifts_under_poll s i d :
  inv N s -> 0 <= i -> i + 1 < size s ->
  exists p v s',
    peek bits N (i + 1) s = Some (Some p, s) /\
    poll bits N d s = Some ((true, v), s') /\
    peek bits N i s' = Some (Some p, s') /\
    deref p s' = deref p s.
Proof.
  unfold size. intros Hs Hi Hlt. pose proof Hs as (Hl & Hh & Hn).
  assert (He : empty s = false) by (apply empty_false; lia).
  destruct (poll_nonempty bits N HN d s Hs He) as (v & _ & Hp).
  set (s' := set_numElements (_numElements s - 1) s) in *.
  assert (Hs' : inv N s') by (apply inv_decrement; [done|lia]).
  exists ((_head s - _numElements s + (i + 1)) mod N), v, s'.
  split_and!; try done.
  - apply (peek_slot bits N HN); [done..|lia].
  - rewrite (peek_slot bits N HN) by (done || simpl; lia). simpl.
    do 4 f_equal. lia.
Qed.

(** X11. A forced push into a full buffer writes the slot of the oldest
    element: the pointer that [peek(0)] returned before the call reads
    the pushed value afterwards, and is what [peek(N - 1)] now returns. *)
Theorem forced_push_overwrites_oldest s obj :
  inv N s -> _numElements s = N ->
  exists p s',
    peek bits N 0 s = Some (Some p, s) /\
    push bits N obj true s = Some (true, s') /\
    deref p s' = Some obj /\
    peek bits N (N - 1) s' = Some (Some p, s').
Proof.
  intros Hs Hfull. pose proof Hs as (Hl & Hh & Hn). pose proof HN as [H1 H2].
  set (s' := mkRingBuf (<[Z.to_nat (_head s) := obj]> (_buf s))
                       ((_head s + 1) mod N) (_numElements s)).
  assert (Hs' : inv N s').
  { apply inv_push; [done| |lia]. apply Z.mod_pos_bound; lia. }
  assert (Hp : (_head s - _numElements s + 0) mod N = _head s).
  { rewrite Hfull.
    replace (_head s - N + 0) with (_head s + (-1) * N) by lia.
    rewrite Z.mod_add by lia. apply Z.mod_small; lia. }
  exists (_head s), s'. split_and!.
  - rewrite (peek_slot bits N HN) by (done || lia). by rewrite Hp.
  - apply (push_full_force bits N HN); [done|]. apply (full_true N). lia.
  - unfold deref. simpl. apply list_lookup_insert_eq. lia.
  - rewrite (peek_slot bits N HN) by (done || simpl; lia). simpl.
    rewrite SizeTFacts.mod_slot, Hfull.
    replace (_head s + 1 - N + (N - 1)) with (_head s) by lia.
    by rewrite Z.mod_small by lia.
Qed.

Lemma peek_loop_from (fuel : nat) s j :
  inv N s -> 0 <= j <= _numElements s ->
  (Z.to_nat (_numElements s - j) < fuel)%nat ->
  peek_loop bits N fuel j s
    = Some (Some (drop (Z.to_nat j) (contents bits N s)), s).
Proof.
  intros Hs. pose proof Hs as (Hl & Hh & Hn). pose proof HN as [H1 H2].
  pose proof (length_contents bits N s Hs) as Hlen.
  revert j. induction fuel as [|fuel IH]; intros j Hj Hfuel; [lia|].
  simpl. unfold bind.
  destruct (Z.eq_dec j (_numElements s)) as [->|Hne].
  - rewrite (peek_none bits N HN) by (done || lia).
    by rewrite drop_ge by lia.
  - rewrite (peek_slot bits N HN) by (done || lia).
    destruct (lookup_lt_is_Some_2 (contents bits N s) (Z.to_nat j))
      as [v Hv]; [lia|].
    rewrite (load_slot s j v) by (done || lia).
    unfold SizeT.add. rewrite SizeTFacts.wrap_small by lia.
    rewrite IH by lia. simpl.
    rewrite (drop_S _ _ _ Hv).
    by replace (Z.to_nat (j + 1)) with (S (Z.to_nat j)) by lia.
Qed.

(** X12. The loop that peeks at indices 0, 1, 2, ... until [peek]
    returns [nullptr] ends after [size()] elements, has then seen the
    queue from the oldest to the newest element, and leaves the object
    as it was. *)
Theorem peek_loop_lists_queue (fuel : nat) s :
  inv N s -> size s < Z.of_nat fuel ->
  peek_loop bits N fuel 0 s = Some (Some (contents bits N s), s).
Proof.
  unfold size. intros Hs Hfuel. pose proof Hs as (_ & _ & Hn).
  rewrite (peek_loop_from fuel s 0) by (done || lia). done.
Qed.

End Pointers.

Section Draining.

Context {T : Type}.
Variables bits N : Z.
Hypothesis HN : valid_Size bits N.

Implicit Types (s : RingBuf T) (obj v d : T) (force : bool).

(** X13. The loop that pulls while the buffer is not empty ends after
    [size()] iterations, has then delivered the queue from the oldest to
    the newest element whatever the destination held, and leaves an
    empty buffer with [_buf] and [_head] as they were. *)
Theorem drain_loop_delivers_queue (fuel : nat) s d :
  inv N s -> size s < Z.of_nat fuel ->
  exists s',
    drain_loop bits N fuel d s = Some (Some (contents bits N s), s') /\
    empty s' = true /\
    _buf s' = _buf s /\ _head s' = _head s.
Proof.
  unfold size. revert s.
  induction fuel as [|fuel IH]; intros s Hs Hfuel.
  { destruct Hs as (_ & _ & ?). lia. }
  simpl. unfold bind, get. simpl.
  pose proof (length_contents bits N s Hs) as Hlen.
  destruct (empty s) eqn:He; simpl.
  - exists s. apply empty_true in He as Hz.
    by rewrite (contents_empty bits N s Hz).
  - apply empty_false in He as Hnz. pose proof Hs as (_ & _ & Hn).
    destruct (poll_queue bits N HN s d Hs) as (s1 & -> & Hs1 & Hc1 & Hb1 & Hh1).
    simpl.
    pose proof (length_contents bits N s1 Hs1) as Hlen1.
    rewrite Hc1, length_drop in Hlen1.
    destruct (IH s1 Hs1) as (s' & -> & He' & Hb' & Hh'); [lia|].
    exists s'. rewrite Hc1, Hb', Hh'. simpl.
    destruct (contents bits N s) as [|v q]; simpl in *; [lia|].
    by rewrite drop_0.
Qed.

End Draining.

(** ** Instances of the further properties *)

Import SampleCallers.

Lemma clear_resets_witness :
  valid_Size bits N /\ length (_buf st_corrupt) = Z.to_nat N /\
  exists s',
    clear st_corrupt = Some (tt, s') /\
    RingBufCPP st_corrupt = Some (tt, s') /\
    inv N s' /\
    _buf s' = _buf st_corrupt /\ _head s' = 0 /\ size s' = 0 /\
    empty s' = true /\ full N s' = false /\
    contents bits N s' = [].
Proof.
  split; [decided|]. split; [reflexivity|].
  apply (clear_resets bits N); [decided|reflexivity].
Defined.

Lemma capacity_predicates_witness :
  valid_Size bits N /\ inv N st_full /\
  size st_full = Z.of_nat (length (contents bits N st_full)) /\
  (empty st_full = true <-> contents bits N st_full = []) /\
  (full N st_full = true <-> size st_full = max_size N) /\
  (full N st_full = true <->
     length (contents bits N st_full) = Z.to_nat N) /\
  ~ (empty st_full = true /\ full N st_full = true).
Proof.
  split; [decided|]. split; [decided|].
  apply (capacity_predicates bits N); decided.
Defined.

Lemma push_result_witness :
  valid_Size bits N /\ inv N st_full /\
  exists s',
    push bits N 4 false st_full
      = Some (negb (full N st_full) || false, s') /\
    inv N s' /\
    (negb (full N st_full) || false = false -> s' = st_full) /\
    size s' = (if full N st_full then size st_full else size st_full + 1).
Proof.
  split; [decided|]. split; [decided|].
  apply (push_result bits N); decided.
Defined.

Lemma calls_refine_queue_witness :
  valid_Size bits N /\ inv N st_partial /\
  exists s',
    do_calls bits N SampleCallers.calls st_partial = Some (tt, s') /\
    inv N s' /\
    contents bits N s'
      = queue_steps N SampleCallers.calls (contents bits N st_partial).
Proof.
  split; [decided|]. split; [decided|].
  apply (calls_refine_queue bits N); decided.
Defined.

Lemma forced_pushes_keep_newest_witness :
  valid_Size bits N /\ inv N st_partial /\
  exists s',
    push_each bits N true [30; 40; 50] st_partial
      = Some (repeat true (length [30; 40; 50]), s') /\
    inv N s' /\
    contents bits N s'
      = newest N (contents bits N st_partial ++ [30; 40; 50]).
Proof.
  split; [decided|]. split; [decided|].
  apply (forced_pushes_keep_newest bits N); decided.
Defined.

Lemma unforced_pushes_keep_oldest_witness :
  valid_Size bits N /\ inv N st_partial /\
  exists s',
    push_each bits N false [30; 40; 50] st_partial
      = Some (repeat true
                (Z.to_nat (max_size N - size st_partial)
                   `min` length [30; 40; 50])
              ++ repeat false
                   (length [30; 40; 50]
                    - Z.to_nat (max_size N - size st_partial)),
              s') /\
    inv N s' /\
    contents bits N s'
      = take (Z.to_nat N) (contents bits N st_partial ++ [30; 40; 50]).
Proof.
  split; [decided|]. split; [decided|].
  apply (unforced_pushes_keep_oldest bits N); decided.
Defined.

Lemma pull_queue_witness :
  valid_Size bits N /\ inv N st_full /\
  exists s',
    pull bits N (Some 0) st_full
      = Some ((negb (empty st_full),
               (fun d => default d (contents bits N st_full !! 0%nat))
                 <$> Some 0), s') /\
    inv N s' /\
    contents bits N s' = drop 1 (contents bits N st_full) /\
    _buf s' = _buf st_full /\ _head s' = _head st_full.
Proof.
  split; [decided|]. split; [decided|].
  apply (pull_queue bits N); decided.
Defined.

Lemma fifo_peek_after_pushes_witness :
  valid_Size bits N /\ array_fits bits N /\ inv N st_empty /\
  size st_empty + Z.of_nat (length [10; 20; 30]) <= max_size N /\
  (2 < length (contents bits N st_empty ++ [10; 20; 30]%Z))%nat /\
  exists s' p,
    push_all bits N [10; 20; 30] st_empty
      = Some (repeat true (length [10; 20; 30]), s') /\
    peek bits N (Z.of_nat 2) s' = Some (Some p, s') /\
    deref p s' = (contents bits N st_empty ++ [10; 20; 30]) !! 2%nat /\
    peek bits N
      (Z.of_nat (length (contents bits N st_empty ++ [10; 20; 30]))) s'
      = Some (None, s').
Proof.
  split_and!; [decided|decided|decided|decided|decided|].
  apply (fifo_peek_after_pushes bits N); decided.
Defined.

Lemma peek_stable_under_push_witness :
  valid_Size bits N /\ array_fits bits N /\ inv N st_partial /\
  _numElements st_partial < N /\ 0 <= 1 < size st_partial /\
  exists p s',
    peek bits N 1 st_partial = Some (Some p, st_partial) /\
    push bits N 30 false st_partial = Some (true, s') /\
    peek bits N 1 s' = Some (Some p, s') /\
    deref p s' = deref p st_partial.
Proof.
  split_and!; try decided.
  apply (peek_stable_under_push bits N); decided.
Defined.

Lemma peek_shifts_under_poll_witness :
  valid_Size bits N /\ array_fits bits N /\ inv N st_full /\
  0 <= 1 /\ 1 + 1 < size st_full /\
  exists p v s',
    peek bits N (1 + 1) st_full = Some (Some p, st_full) /\
    poll bits N 0 st_full = Some ((true, v), s') /\
    peek bits N 1 s' = Some (Some p, s') /\
    deref p s' = deref p st_full.
Proof.
  split_and!; try decided.
  apply (peek_shifts_under_poll bits N); decided.
Defined.

Lemma forced_push_overwrites_oldest_witness :
  valid_Size bits N /\ array_fits bits N /\ inv N st_full /\
  _numElements st_full = N /\
  exists p s',
    peek bits N 0 st_full = Some (Some p, st_full) /\
    push bits N 4 true st_full = Some (true, s') /\
    deref p s' = Some 4 /\
    peek bits N (N - 1) s' = Some (Some p, s').
Proof.
  split_and!; [decided|decided|decided|reflexivity|].
  apply (forced_push_overwrites_oldest bits N);
    [decided|decided|decided|reflexivity].
Defined.

Lemma peek_loop_lists_queue_witness :
  valid_Size bits N /\ array_fits bits N /\ inv N st_full /\
  size st_full < Z.of_nat 5 /\
  peek_loop bits N 5 0 st_full
    = Some (Some (contents bits N st_full), st_full).
Proof.
  split_and!; [decided|decided|decided|decided|].
  apply (peek_loop_lists_queue bits N); decided.
Defined.

Lemma drain_loop_delivers_queue_witness :
  valid_Size bits N /\ inv N st_full /\ size st_full < Z.of_nat 5 /\
  exists s',
    drain_loop bits N 5 0 st_full
      = Some (Some (contents bits N st_full), s') /\
    empty s' = true /\
    _buf s' = _buf st_full /\ _head s' = _head st_full.
Proof.
  split_and!; [decided|decided|decided|].
  apply (drain_loop_delivers_queue bits N); decided.
Defined.
